(** * md-mermaid-checker: the block extractor and the validation run

    A shallow embedding of [src/md_mermaid_checker/cli.py].

    Python [str] values are lists of Unicode code points, [bytes] values are
    lists of [byte]; a [Path] is represented by its string form.  The parts of
    the Python runtime the script relies on ([str.splitlines], [str.strip],
    the two regular expressions, the UTF-8 codec with its error handlers,
    [%03d] formatting) are modelled first; the functions of [cli.py] follow,
    under their own names. *)

From Stdlib Require Import List NArith ZArith Arith Bool Lia.
From Stdlib.Strings Require Import Ascii Byte.
From Stdlib.Strings Require String.
Import String.StringSyntax.
From Stdlib Require Import DecimalNat.
Import ListNotations.


(** ** Text *)

Definition str := list N.
Definition bytes := list byte.

(** A literal of the source, as code points. *)
Definition lit (s : String.string) : str :=
  map N_of_ascii (String.list_ascii_of_string s).
Arguments lit s%_string_scope.

Definition str_eqb (a b : str) : bool :=
  if list_eq_dec N.eq_dec a b then true else false.

Definition in_range (lo hi c : N) : bool := ((lo <=? c) && (c <=? hi))%N.

(** [Py_UNICODE_ISSPACE]: what [\s] matches in a [str] pattern and what
    [str.strip()] removes. *)
Definition is_space (c : N) : bool :=
  in_range 0x09 0x0D c || in_range 0x1C 0x1F c || (c =? 0x20)%N
  || (c =? 0x85)%N || (c =? 0xA0)%N || (c =? 0x1680)%N
  || in_range 0x2000 0x200A c || (c =? 0x2028)%N || (c =? 0x2029)%N
  || (c =? 0x202F)%N || (c =? 0x205F)%N || (c =? 0x3000)%N.

(** [Py_UNICODE_ISLINEBREAK]: the line boundaries of [str.splitlines]. *)
Definition is_linebreak (c : N) : bool :=
  in_range 0x0A 0x0D c || in_range 0x1C 0x1E c
  || (c =? 0x85)%N || (c =? 0x2028)%N || (c =? 0x2029)%N.

Definition LF : N := 10.
Definition CR : N := 13.

(** [str.splitlines()] (keepends off): [cur] holds the current line,
    reversed.  A carriage return directly followed by a line feed is one
    boundary; a final line without a terminator is kept; nothing follows a
    final terminator. *)
Fixpoint splitlines_from (cur : str) (s : str) : list str :=
  match s with
  | [] => match cur with [] => [] | _ => [rev cur] end
  | c :: rest =>
      if is_linebreak c then
        rev cur ::
        match rest with
        | d :: rest' =>
            if (c =? CR)%N && (d =? LF)%N then splitlines_from [] rest'
            else splitlines_from [] rest
        | [] => splitlines_from [] rest
        end
      else splitlines_from (c :: cur) rest
  end.

Definition splitlines (s : str) : list str := splitlines_from [] s.

(** ["\n".join(xs)] *)
Fixpoint join_lines (xs : list str) : str :=
  match xs with
  | [] => []
  | [x] => x
  | x :: rest => x ++ LF :: join_lines rest
  end.

Fixpoint lstrip (s : str) : str :=
  match s with
  | c :: rest => if is_space c then lstrip rest else s
  | [] => []
  end.

(** [str.strip()] *)
Definition strip (s : str) : str := rev (lstrip (rev (lstrip s))).

(** ** Numbers in f-strings *)

Fixpoint digits_of_uint (d : Decimal.uint) : str :=
  match d with
  | Decimal.Nil => []
  | Decimal.D0 d => 48%N :: digits_of_uint d
  | Decimal.D1 d => 49%N :: digits_of_uint d
  | Decimal.D2 d => 50%N :: digits_of_uint d
  | Decimal.D3 d => 51%N :: digits_of_uint d
  | Decimal.D4 d => 52%N :: digits_of_uint d
  | Decimal.D5 d => 53%N :: digits_of_uint d
  | Decimal.D6 d => 54%N :: digits_of_uint d
  | Decimal.D7 d => 55%N :: digits_of_uint d
  | Decimal.D8 d => 56%N :: digits_of_uint d
  | Decimal.D9 d => 57%N :: digits_of_uint d
  end.

(** [f"{n}"] for a non-negative [int]. *)
Definition dec (n : nat) : str := digits_of_uint (Nat.to_uint n).

(** [f"{n:03d}"]: zero-padded on the left to width three, longer numbers
    are not cut. *)
Definition dec03 (n : nat) : str :=
  let d := dec n in repeat 48%N (3 - length d) ++ d.

(** ** Regular expressions

    The two patterns of the script use literals, [\s], [*], alternation and
    the anchors; [re.match] is anchored at the start, so [^] adds nothing. *)

Module Re.

Inductive re : Type :=
| Void
| Eps
| Chr (c : N)
| Space
| Seq (r1 r2 : re)
| Alt (r1 r2 : re)
| Star (r : re).

Fixpoint Lit (s : str) : re :=
  match s with
  | [] => Eps
  | c :: rest => Seq (Chr c) (Lit rest)
  end.

(** [$] without [re.MULTILINE] holds at the end of the string and just
    before a line feed that ends the string.  Both patterns end in [$], so
    [re.match] succeeds exactly when the whole string is in the language of
    the pattern with [Dollar] in place of [$]. *)
Definition Dollar : re := Alt Eps (Chr LF).

Fixpoint nullable (r : re) : bool :=
  match r with
  | Void => false
  | Eps => true
  | Chr _ => false
  | Space => false
  | Seq r1 r2 => nullable r1 && nullable r2
  | Alt r1 r2 => nullable r1 || nullable r2
  | Star _ => true
  end.

Fixpoint deriv (c : N) (r : re) : re :=
  match r with
  | Void => Void
  | Eps => Void
  | Chr d => if (c =? d)%N then Eps else Void
  | Space => if is_space c then Eps else Void
  | Seq r1 r2 =>
      if nullable r1 then Alt (Seq (deriv c r1) r2) (deriv c r2)
      else Seq (deriv c r1) r2
  | Alt r1 r2 => Alt (deriv c r1) (deriv c r2)
  | Star r1 => Seq (deriv c r1) (Star r1)
  end.

Fixpoint matches (r : re) (s : str) : bool :=
  match s with
  | [] => nullable r
  | c :: rest => matches (deriv c r) rest
  end.

(** The language of a pattern. *)
Inductive lang : re -> str -> Prop :=
| L_eps : lang Eps []
| L_chr c : lang (Chr c) [c]
| L_space c : is_space c = true -> lang Space [c]
| L_seq r1 r2 s1 s2 : lang r1 s1 -> lang r2 s2 -> lang (Seq r1 r2) (s1 ++ s2)
| L_alt_l r1 r2 s : lang r1 s -> lang (Alt r1 r2) s
| L_alt_r r1 r2 s : lang r2 s -> lang (Alt r1 r2) s
| L_star_nil r : lang (Star r) []
| L_star_app r s1 s2 : lang r s1 -> lang (Star r) s2 -> lang (Star r) (s1 ++ s2).

End Re.

(** ** The script's patterns *)

Definition FENCE_RE : Re.re :=
  Re.Seq (Re.Star Re.Space)
    (Re.Seq (Re.Lit (lit "```"))
       (Re.Seq (Re.Alt (Re.Lit (lit "mermaid")) (Re.Lit (lit "mermaidjs")))
          (Re.Seq (Re.Star Re.Space) Re.Dollar))).

Definition END_FENCE_RE : Re.re :=
  Re.Seq (Re.Star Re.Space)
    (Re.Seq (Re.Lit (lit "```")) (Re.Seq (Re.Star Re.Space) Re.Dollar)).

(** [PATTERN.match(line)] as a truth value. *)
Definition re_match (r : Re.re) (line : str) : bool := Re.matches r line.

(** ** Exceptions *)

Inductive exn : Type :=
| UnicodeDecodeError
| IndexError.

Inductive exc (A : Type) : Type :=
| Ok (a : A)
| Raise (e : exn).
Arguments Ok {A} a.
Arguments Raise {A} e.

Definition exc_map {A B} (f : A -> B) (r : exc A) : exc B :=
  match r with
  | Ok a => Ok (f a)
  | Raise e => Raise e
  end.

(** ** The UTF-8 codec

    [bytes.decode("utf-8", errors=...)] and the decoder behind
    [Path.read_text(encoding="utf-8", errors=...)].  A malformed sequence is
    reported with the span of bytes the codec gives up on (the lead byte
    alone, or the lead byte and the continuation bytes that were still
    acceptable); what happens to the span is the error handler's choice. *)

Inductive errors : Type :=
| Strict      (* errors="strict", the default: raise UnicodeDecodeError *)
| Ignore      (* errors="ignore": leave the span out *)
| Replace.    (* errors="replace": U+FFFD in place of the span *)

Inductive utf8_item : Type :=
| U_char (cp : N) (n : nat)   (* a code point read from n bytes *)
| U_bad (n : nat).            (* a malformed span of n bytes *)

Definition is_cont (b : N) : bool := in_range 0x80 0xBF b.

Definition REPLACEMENT : N := 0xFFFD.

(** The item that starts at lead byte [ch], followed by [t]. *)
Definition utf8_next (ch : N) (t : list N) : utf8_item :=
  (if ch <? 0x80 then U_char ch 1
   else if ch <? 0xE0 then
     if ch <? 0xC2 then U_bad 1
     else match t with
          | [] => U_bad 1
          | ch2 :: _ =>
              if is_cont ch2
              then U_char (N.shiftl ch 6 + ch2 - (N.shiftl 0xC0 6 + 0x80)) 2
              else U_bad 1
          end
   else if ch <? 0xF0 then
     match t with
     | [] => U_bad 1
     | ch2 :: t2 =>
         if negb (is_cont ch2)
            || (if ch2 <? 0xA0 then ch =? 0xE0 else ch =? 0xED)
         then U_bad 1
         else match t2 with
              | [] => U_bad 2
              | ch3 :: _ =>
                  if is_cont ch3
                  then U_char (N.shiftl ch 12 + N.shiftl ch2 6 + ch3
                               - (N.shiftl 0xE0 12 + N.shiftl 0x80 6 + 0x80)) 3
                  else U_bad 2
              end
     end
   else if ch <? 0xF5 then
     match t with
     | [] => U_bad 1
     | ch2 :: t2 =>
         if negb (is_cont ch2)
            || (if ch2 <? 0x90 then ch =? 0xF0 else ch =? 0xF4)
         then U_bad 1
         else match t2 with
              | [] => U_bad 2
              | ch3 :: t3 =>
                  if negb (is_cont ch3) then U_bad 2
                  else match t3 with
                       | [] => U_bad 3
                       | ch4 :: _ =>
                           if is_cont ch4
                           then U_char (N.shiftl ch 18 + N.shiftl ch2 12
                                        + N.shiftl ch3 6 + ch4
                                        - (N.shiftl 0xF0 18 + N.shiftl 0x80 12
                                           + N.shiftl 0x80 6 + 0x80)) 4
                           else U_bad 3
                       end
              end
     end
   else U_bad 1)%N.

(** The decoding loop; [skip] counts the bytes that still belong to the
    item read last. *)
Fixpoint utf8_decode_from (h : errors) (skip : nat) (s : list N) : exc str :=
  match s with
  | [] => Ok []
  | ch :: t =>
      match skip with
      | S k => utf8_decode_from h k t
      | O =>
          match utf8_next ch t with
          | U_char cp n => exc_map (cons cp) (utf8_decode_from h (n - 1) t)
          | U_bad n =>
              match h with
              | Strict => Raise UnicodeDecodeError
              | Ignore => utf8_decode_from h (n - 1) t
              | Replace =>
                  exc_map (cons REPLACEMENT) (utf8_decode_from h (n - 1) t)
              end
          end
      end
  end.

Definition decode (h : errors) (b : bytes) : exc str :=
  utf8_decode_from h 0 (map Byte.to_N b).

(** [str.encode("utf-8")] on ASCII text, for writing test inputs. *)
Definition ascii_bytes (s : String.string) : bytes :=
  String.list_byte_of_string s.
Arguments ascii_bytes s%_string_scope.

(** Text files are opened with universal newlines: on reading, a carriage
    return, alone or followed by a line feed, becomes one line feed. *)
Fixpoint translate_newlines (s : str) : str :=
  match s with
  | [] => []
  | c :: rest =>
      if (c =? CR)%N then
        LF :: match rest with
              | d :: rest' =>
                  if (d =? LF)%N then translate_newlines rest'
                  else translate_newlines rest
              | [] => translate_newlines rest
              end
      else c :: translate_newlines rest
  end.

(** ** The world outside the script

    Everything [cli.py] asks of its environment, as one record: the
    executable search path, glob expansion, path resolution, the file
    system, the scratch directory [tempfile.mkdtemp] hands out, the outcome
    of each subprocess call (by its position in the run and its argument
    vector), and whether the final clean-up goes through. *)

Inductive entry : Type :=
| Missing
| Directory
| RegularFile (data : bytes).

Inductive proc_outcome : Type :=
| Completed (returncode : Z) (stdout stderr : bytes)
| NotFound (e : str).          (* subprocess.run raised FileNotFoundError *)

Record Env : Type := {
  which : str -> option str;                  (* shutil.which *)
  glob : str -> list str;                     (* glob.glob(p, recursive=True) *)
  resolve : str -> str;                       (* Path(x).resolve() *)
  fs : str -> entry;
  mkdtemp : str;
  subprocess_run : nat -> list str -> proc_outcome;
  cleanup_ok : bool
}.

Definition exists_ (env : Env) (p : str) : bool :=
  match fs env p with Missing => false | _ => true end.

Definition is_file (env : Env) (p : str) : bool :=
  match fs env p with RegularFile _ => true | _ => false end.

(** [Path.read_text(encoding="utf-8", errors=h)] on a regular file. *)
Definition read_text (env : Env) (p : str) (h : errors) : exc str :=
  match fs env p with
  | RegularFile data => exc_map translate_newlines (decode h data)
  | _ => Ok []
  end.

(** ** Blocks and their extraction *)

Record Block : Type := {
  file : str;
  start_line : nat;
  index_in_file : nat;
  content : str
}.

Module Scan.

(** The local variables of the scanning loop. *)
Record state : Type := {
  in_block : bool;
  start_line : nat;
  buf : list str;
  block_idx : nat;
  blocks : list Block
}.

Definition init : state :=
  {| in_block := false; start_line := 0; buf := []; block_idx := 0;
     blocks := [] |}.

(** One turn of the loop body, at line number [i]. *)
Definition step (path : str) (st : state) (i : nat) (line : str) : state :=
  if negb (in_block st) && re_match FENCE_RE line then
    {| in_block := true; start_line := i; buf := [];
       block_idx := block_idx st; blocks := blocks st |}
  else if in_block st && re_match END_FENCE_RE line then
    {| in_block := false; start_line := start_line st; buf := [];
       block_idx := S (block_idx st);
       blocks := blocks st ++
                 [Build_Block path (start_line st) (S (block_idx st))
                    (join_lines (buf st))] |}
  else if in_block st then
    {| in_block := true; start_line := start_line st;
       buf := buf st ++ [line];
       block_idx := block_idx st; blocks := blocks st |}
  else st.

(** [for i, line in enumerate(lines, start=i): ...] *)
Fixpoint run (path : str) (st : state) (i : nat) (lines : list str) : state :=
  match lines with
  | [] => st
  | line :: rest => run path (step path st i line) (S i) rest
  end.

End Scan.

(** The scan of a document already split into lines. *)
Definition scan_lines (path : str) (lines : list str) : list Block :=
  Scan.blocks (Scan.run path Scan.init 1 lines).

(** The [try]/[except UnicodeDecodeError] that computes [lines]. *)
Definition read_lines (env : Env) (path : str) : exc (list str) :=
  match exc_map splitlines (read_text env path Strict) with
  | Raise UnicodeDecodeError => exc_map splitlines (read_text env path Ignore)
  | r => r
  end.

Definition find_mermaid_blocks (env : Env) (path : str) : exc (list Block) :=
  if negb (is_file env path) then Ok []
  else exc_map (scan_lines path) (read_lines env path).

(** ** Input expansion *)

Definition mem (p : str) (seen : list str) : bool := existsb (str_eqb p) seen.

Fixpoint dedup (seen : list str) (out : list str) : list str :=
  match out with
  | [] => []
  | p :: rest =>
      if mem p seen then dedup seen rest
      else p :: dedup (p :: seen) rest
  end.

Definition expand_inputs (env : Env) (patterns : list str) : list str :=
  let out :=
    flat_map (fun p => match glob env p with
                       | [] => [p]
                       | matches => matches
                       end) patterns in
  dedup [] (map (resolve env) out).

(** ** Renderer discovery *)

(** [if mmdc_bin:] and [if npx:] hold for a non-empty string only. *)
Definition which_mmdc (env : Env) : option (list str) :=
  match which env (lit "mmdc") with
  | Some (c :: mmdc_bin) => Some [c :: mmdc_bin]
  | _ =>
      match which env (lit "npx") with
      | Some (c :: npx) =>
          Some [c :: npx; lit "-y"; lit "@mermaid-js/mermaid-cli"; lit "mmdc"]
      | _ => None
      end
  end.

(** ** Scratch names *)

Definition is_safe_char (c : N) : bool :=
  in_range 65 90 c || in_range 97 122 c || in_range 48 57 c
  || (c =? 95)%N || (c =? 46)%N || (c =? 45)%N.

Definition safe_name (p : str) : str :=
  map (fun c => if is_safe_char c then c else 95%N) p.

(** [f"{safe_name(md)}.block_{b.index_in_file:03d}.mmd"] *)
Definition stem_of (md : str) (b : Block) : str :=
  safe_name md ++ lit ".block_" ++ dec03 (index_in_file b) ++ lit ".mmd".

(** [tmpdir / name] for a name without separators. *)
Definition joinpath (dir name : str) : str := dir ++ lit "/" ++ name.

(** ** Observable effects

    What a run does to the outside world, in order.  A [Run] event carries
    the argument vector and the outcome the subprocess call came back
    with. *)

Inductive event : Type :=
| Stdout (line : str)
| Stderr (line : str)
| Mkdtemp (dir : str)
| WriteText (path : str) (text : str)
| Run (cmd : list str) (res : proc_outcome)
| RemoveScratch (dir : str).

(** Computations that log events and may raise. *)
Definition M (A : Type) : Type := (exc A * list event)%type.

Definition ret {A} (a : A) : M A := (Ok a, []).

Definition bind {A B} (m : M A) (f : A -> M B) : M B :=
  match m with
  | (Ok a, t) => let '(r, t') := f a in (r, t ++ t')
  | (Raise e, t) => (Raise e, t)
  end.

Definition emit (ev : event) : M unit := (Ok tt, [ev]).

Definition lift {A} (r : exc A) : M A := (r, []).

(** [try: m finally: fin] *)
Definition finally {A} (m : M A) (fin : M unit) : M A :=
  let '(r, t) := m in
  let '(r', t') := fin in
  (match r' with Ok _ => r | Raise e => Raise e end, t ++ t').

Declare Scope m_scope.
Delimit Scope m_scope with M.
Notation "x <- m ;; k" := (bind m (fun x => k))
  (at level 61, m at next level, right associativity) : m_scope.
Notation "' p <- m ;; k" := (bind m (fun x => match x with p => k end))
  (at level 61, p pattern, m at next level, right associativity) : m_scope.
Notation "m ;; k" := (bind m (fun _ => k))
  (at level 61, right associativity) : m_scope.
Local Open Scope m_scope.

(** [for x in xs: body x] *)
Fixpoint for_each {A} (xs : list A) (body : A -> M unit) : M unit :=
  match xs with
  | [] => ret tt
  | x :: rest => body x ;; for_each rest body
  end.

Definition outcome (m : M nat) : exc nat := fst m.
Definition trace {A} (m : M A) : list event := snd m.

(** ** The renderer invoker *)

Definition nonempty {A} (l : list A) : bool :=
  match l with [] => false | _ => true end.

(** The argument vector [run_mmdc] builds. *)
Definition mmdc_cmd (cmd_base : list str) (in_file out_file theme : str)
    (config : option str) : list str :=
  let cmd := cmd_base ++ [lit "-i"; in_file; lit "-o"; out_file;
                          lit "--theme"; theme] in
  match config with
  | Some c => cmd ++ [lit "--configFile"; c]
  | None => cmd
  end.

(** [call] is the position of this subprocess call in the run. *)
Definition run_mmdc (env : Env) (call : nat) (cmd_base : list str)
    (in_file out_file theme : str) (config : option str) : M (bool * str) :=
  let cmd := mmdc_cmd cmd_base in_file out_file theme config in
  let proc := subprocess_run env call cmd in
  emit (Run cmd proc) ;;
  match proc with
  | Completed returncode stdout stderr =>
      let ok := (returncode =? 0)%Z in
      msg <- lift (decode Ignore (if nonempty stderr then stderr else stdout)) ;;
      ret (ok, strip msg)
  | NotFound e => ret (false, lit "Failed to execute mmdc: " ++ e)
  end.

(** ** The command line *)

Record Args : Type := {
  inputs : list str;
  config : option str;
  theme : str;
  keep : bool;
  quiet : bool
}.

(** The body of the inner loop, for one block; returns the new [failed]. *)
Definition check_block (env : Env) (args : Args) (cmd_base : list str)
    (tmpdir md : str) (b : Block) (failed total : nat) : M nat :=
  let stem := stem_of md b in
  let in_file := joinpath tmpdir stem in
  let out_file := joinpath tmpdir (stem ++ lit ".svg") in
  emit (WriteText in_file (content b)) ;;
  ' (ok, msg) <- run_mmdc env total cmd_base in_file out_file
                   (theme args) (config args) ;;
  if ok then
    (if negb (quiet args) then
       emit (Stdout (lit "OK   " ++ md ++ lit ":" ++ dec (start_line b)
                     ++ lit "  (" ++ stem ++ lit ")"))
     else ret tt) ;;
    ret failed
  else
    let failed := S failed in
    first_line <-
      (if nonempty msg then
         match splitlines msg with
         | l :: _ => ret l
         | [] => lift (Raise IndexError)
         end
       else ret (lit "mmdc failed")) ;;
    emit (Stderr (lit "ERR  " ++ md ++ lit ":" ++ dec (start_line b)
                  ++ lit "  (" ++ stem ++ lit ")  " ++ first_line)) ;;
    (if negb (quiet args) && nonempty msg then
       for_each (tl (splitlines msg))
         (fun line => emit (Stderr (lit "      " ++ line)))
     else ret tt) ;;
    ret failed.

(** [for b in blocks: total += 1; ...] *)
Fixpoint check_blocks (env : Env) (args : Args) (cmd_base : list str)
    (tmpdir md : str) (blocks : list Block) (failed total : nat)
    : M (nat * nat) :=
  match blocks with
  | [] => ret (failed, total)
  | b :: rest =>
      let total := S total in
      failed <- check_block env args cmd_base tmpdir md b failed total ;;
      check_blocks env args cmd_base tmpdir md rest failed total
  end.

(** [for md in files: ...], on the counters [failed], [total] and
    [found_any]. *)
Fixpoint check_files (env : Env) (args : Args) (cmd_base : list str)
    (tmpdir : str) (files : list str) (failed total found_any : nat)
    : M (nat * nat * nat) :=
  match files with
  | [] => ret (failed, total, found_any)
  | md :: rest =>
      blocks <- lift (find_mermaid_blocks env md) ;;
      match blocks with
      | [] => check_files env args cmd_base tmpdir rest failed total found_any
      | _ =>
          ' (failed, total) <- check_blocks env args cmd_base tmpdir md blocks
                                 failed total ;;
          check_files env args cmd_base tmpdir rest failed total 1
      end
  end.

(** The [finally] clause of [main]. *)
Definition cleanup (env : Env) (args : Args) (tmpdir : str) : M unit :=
  if negb (keep args) then
    emit (RemoveScratch tmpdir) ;;
    if cleanup_ok env then ret tt
    else if negb (quiet args) then
      emit (Stderr (lit "Note: could not remove temp dir " ++ tmpdir))
    else ret tt
  else ret tt.

(** The part of [main] under [try]. *)
Definition check_all (env : Env) (args : Args) (cmd_base : list str)
    (tmpdir : str) (files : list str) : M nat :=
  ' (failed, total, found_any) <- check_files env args cmd_base tmpdir files
                                    0 0 0 ;;
  if (found_any =? 0)%nat then
    emit (Stdout (lit "No Mermaid blocks found in inputs.")) ;;
    ret 0
  else
    emit (Stdout (lit "----")) ;;
    emit (Stdout (lit "Checked: " ++ dec total ++ lit "   Failed: "
                  ++ dec failed)) ;;
    ret (if (failed =? 0)%nat then 0 else 1).

(** The input documents of a run. *)
Definition input_files (env : Env) (args : Args) : list str :=
  filter (exists_ env) (expand_inputs env (inputs args)).

Definition config_missing (env : Env) (args : Args) : bool :=
  match config args with
  | Some c => negb (exists_ env c)
  | None => false
  end.

Definition main (env : Env) (args : Args) : M nat :=
  match which_mmdc env with
  | None =>
      emit (Stderr (lit "ERROR: `mmdc` not found, and `npx` not available.")) ;;
      emit (Stderr (lit "Install globally with: npm i -g @mermaid-js/mermaid-cli")) ;;
      ret 2
  | Some cmd_base =>
      if config_missing env args then
        emit (Stderr (lit "ERROR: config file not found: "
                      ++ match config args with Some c => c | None => [] end)) ;;
        ret 2
      else
        let files := input_files env args in
        if negb (nonempty files) then
          emit (Stderr (lit "ERROR: no input files found.")) ;;
          ret 2
        else
          let tmpdir := mkdtemp env in
          emit (Mkdtemp tmpdir) ;;
          finally (check_all env args cmd_base tmpdir files)
                  (cleanup env args tmpdir)
  end.

(** * Vocabulary of the properties *)

(** ** Documents as the extractor reads them *)

Definition all_space (w : str) : Prop := Forall (fun c => is_space c = true) w.

(** The text [errors="ignore"] yields. *)
Definition lossy (b : bytes) : str :=
  match decode Ignore b with
  | Ok t => t
  | Raise _ => []
  end.

(** The lines the extractor works on. *)
Definition lines_of (data : bytes) : list str :=
  splitlines (translate_newlines (lossy data)).

(** The blocks of a document, as a total function of the file system. *)
Definition blocks_of (env : Env) (path : str) : list Block :=
  match fs env path with
  | RegularFile data => scan_lines path (lines_of data)
  | _ => []
  end.

(** The block a closing fence emits. *)
Definition emitted (path : str) (st : Scan.state) : Block :=
  Build_Block path (Scan.start_line st) (S (Scan.block_idx st))
    (join_lines (Scan.buf st)).

(** The numbering invariant. *)
Definition numbered (st : Scan.state) : Prop :=
  map index_in_file (Scan.blocks st) = seq 1 (Scan.block_idx st).

(** ** What a run leaves behind *)

(** The scratch files written, in order: path and text. *)
Fixpoint writes (t : list event) : list (str * str) :=
  match t with
  | [] => []
  | WriteText p x :: r => (p, x) :: writes r
  | _ :: r => writes r
  end.

(** The renderer invocations, in order: argument vector and outcome. *)
Fixpoint runs (t : list event) : list (list str * proc_outcome) :=
  match t with
  | [] => []
  | Run c res :: r => (c, res) :: runs r
  | _ :: r => runs r
  end.

Definition is_report (e : event) : bool :=
  match e with
  | Stdout _ | Stderr _ => true
  | _ => false
  end.

Definition reports (t : list event) : Prop :=
  Forall (fun e => is_report e = true) t.

(** The invoker's verdict on a subprocess outcome. *)
Definition run_ok (res : proc_outcome) : bool :=
  match res with
  | Completed returncode _ _ => (returncode =? 0)%Z
  | NotFound _ => false
  end.

Definition failures (rs : list (list str * proc_outcome)) : nat :=
  length (filter (fun r => negb (run_ok (snd r))) rs).

(** The blocks of a list of documents, each with its document, in
    document order and, within a document, in source order. *)
Definition jobs (env : Env) (files : list str) : list (str * Block) :=
  flat_map (fun md => map (pair md) (blocks_of env md)) files.

Definition scratch_in (tmpdir : str) (j : str * Block) : str :=
  joinpath tmpdir (stem_of (fst j) (snd j)).

Definition scratch_out (tmpdir : str) (j : str * Block) : str :=
  joinpath tmpdir (stem_of (fst j) (snd j) ++ lit ".svg").

Definition job_cmd (args : Args) (cmd_base : list str) (tmpdir : str)
    (j : str * Block) : list str :=
  mmdc_cmd cmd_base (scratch_in tmpdir j) (scratch_out tmpdir j)
    (theme args) (config args).

Definition job_write (tmpdir : str) (j : str * Block) : str * str :=
  (scratch_in tmpdir j, content (snd j)).

(** One subprocess call per job, the first one numbered [S k]. *)
Fixpoint job_runs (env : Env) (args : Args) (cmd_base : list str)
    (tmpdir : str) (k : nat) (js : list (str * Block))
    : list (list str * proc_outcome) :=
  match js with
  | [] => []
  | j :: rest =>
      let c := job_cmd args cmd_base tmpdir j in
      (c, subprocess_run env (S k) c)
      :: job_runs env args cmd_base tmpdir (S k) rest
  end.

(** The last line of a run that found blocks. *)
Definition summary (total failed : nat) : str :=
  lit "Checked: " ++ dec total ++ lit "   Failed: " ++ dec failed.

(** ** The events of a run, block by block *)

(** The diagnostic text the invoker returns. *)
Definition diagnostic (res : proc_outcome) : str :=
  match res with
  | Completed _ stdout stderr =>
      strip (lossy (if nonempty stderr then stderr else stdout))
  | NotFound e => lit "Failed to execute mmdc: " ++ e
  end.

(** What [check_block] prints after the renderer came back. *)
Definition block_report (args : Args) (md : str) (b : Block)
    (res : proc_outcome) : list event :=
  let stem := stem_of md b in
  let msg := diagnostic res in
  if run_ok res then
    if quiet args then []
    else [Stdout (lit "OK   " ++ md ++ lit ":" ++ dec (start_line b)
                  ++ lit "  (" ++ stem ++ lit ")")]
  else
    Stderr (lit "ERR  " ++ md ++ lit ":" ++ dec (start_line b)
            ++ lit "  (" ++ stem ++ lit ")  "
            ++ match splitlines msg with
               | l :: _ => l
               | [] => lit "mmdc failed"
               end)
    :: (if quiet args then []
        else map (fun line => Stderr (lit "      " ++ line))
               (tl (splitlines msg))).

(** Everything the loops do for a list of jobs, the first subprocess call
    numbered [S k]. *)
Fixpoint job_events (env : Env) (args : Args) (cmd_base : list str)
    (tmpdir : str) (k : nat) (js : list (str * Block)) : list event :=
  match js with
  | [] => []
  | j :: rest =>
      let c := job_cmd args cmd_base tmpdir j in
      let res := subprocess_run env (S k) c in
      WriteText (scratch_in tmpdir j) (content (snd j))
      :: Run c res
      :: block_report args (fst j) (snd j) res
      ++ job_events env args cmd_base tmpdir (S k) rest
  end.

(** What is printed once the loops are over. *)
Definition closing (checked failed : nat) : list event :=
  match checked with
  | 0 => [Stdout (lit "No Mermaid blocks found in inputs.")]
  | _ => [Stdout (lit "----"); Stdout (summary checked failed)]
  end.

Definition cleanup_events (env : Env) (args : Args) (tmpdir : str)
    : list event :=
  if keep args then []
  else RemoveScratch tmpdir
       :: (if cleanup_ok env || quiet args then []
           else [Stderr (lit "Note: could not remove temp dir " ++ tmpdir)]).

(** The three ways a run ends before any document is looked at. *)
Definition env_error (env : Env) (args : Args) : bool :=
  match which_mmdc env with
  | None => true
  | Some _ => config_missing env args || negb (nonempty (input_files env args))
  end.

(** ** Digits *)

Definition is_digit (c : N) : bool := in_range 48 57 c.

(** The number a digit string denotes. *)
Definition number (s : str) : nat :=
  fold_left (fun acc c => 10 * acc + N.to_nat (c - 48)) s 0.

(** ** Sample inputs *)

Definition doc_two_blocks : bytes := ascii_bytes "# Title
```mermaid
graph TD
  A-->B
```
prose
  ```mermaidjs  
pie
```
".

(** A document with a byte that is not UTF-8 inside its only block. *)
Definition doc_bad_byte : bytes :=
  ascii_bytes "```mermaid
a" ++ [xff] ++ ascii_bytes "b
```
".

Definition doc_unterminated : bytes := ascii_bytes "text
```mermaid
graph LR
".

Definition sample_fs (p : str) : entry :=
  if str_eqb p (lit "/docs") then Directory
  else if str_eqb p (lit "/docs/a.md") then RegularFile doc_two_blocks
  else if str_eqb p (lit "/docs/bad.md") then RegularFile doc_bad_byte
  else if str_eqb p (lit "/docs/open.md") then RegularFile doc_unterminated
  else if str_eqb p (lit "/x/y.md") then RegularFile doc_two_blocks
  else if str_eqb p (lit "/x_y.md") then RegularFile doc_two_blocks
  else Missing.

(** A diagnostic that starts with a stray byte. *)
Definition sample_stderr : bytes := [xff] ++ ascii_bytes "Parse error
line 2
".

(** A renderer that rejects every second diagram. *)
Definition sample_env : Env := {|
  which := fun name =>
    if str_eqb name (lit "mmdc") then Some (lit "/usr/bin/mmdc") else None;
  glob := fun p =>
    if str_eqb p (lit "/docs/*.md")
    then [lit "/docs/a.md"; lit "/docs/bad.md"; lit "/docs/open.md"]
    else [];
  resolve := fun p => p;
  fs := sample_fs;
  mkdtemp := lit "/tmp/mermaid_check_k3";
  subprocess_run := fun call _ =>
    if Nat.even call
    then Completed 1 [] sample_stderr
    else Completed 0 (ascii_bytes "ok") [];
  cleanup_ok := true
|}.

Definition sample_args (inputs : list str) : Args := {|
  inputs := inputs; config := None; theme := lit "default";
  keep := false; quiet := false
|}.

(** A directory and a pattern that matches three documents. *)
Definition docs_args : Args := sample_args [lit "/docs"; lit "/docs/*.md"].

(** Two documents whose paths differ only in a character that is not kept
    in scratch names. *)
Definition clash_args : Args := sample_args [lit "/x/y.md"; lit "/x_y.md"].

(** ** The claims, in the vocabulary of the model *)

(** A line of [n] backticks between two runs of whitespace. *)
Definition fence_line (n : nat) (ws1 ws2 : str) : str :=
  ws1 ++ repeat 96%N n ++ ws2.

(** [line] ends whatever block is open: the block is emitted with the
    next index and the lines gathered so far, and the loop is outside a
    block again. *)
Definition closes_block (line : str) : Prop :=
  forall path st i,
    Scan.in_block st = true ->
    Scan.in_block (Scan.step path st i line) = false
    /\ Scan.blocks (Scan.step path st i line)
       = Scan.blocks st
         ++ [Build_Block path (Scan.start_line st) (S (Scan.block_idx st))
               (join_lines (Scan.buf st))].


(** The invoker's contract as the specification words it, for the error
    handler [h] of the decoding step. *)
Definition invoker_contract (h : errors) : Prop :=
  forall env call cmd_base in_file out_file theme config rc out err,
    subprocess_run env call (mmdc_cmd cmd_base in_file out_file theme config)
    = Completed rc out err ->
    exists msg,
      decode h (if nonempty err then err else out) = Ok msg
      /\ fst (run_mmdc env call cmd_base in_file out_file theme config)
         = Ok ((rc =? 0)%Z, strip msg).

(** The names of the scratch input files of a run, in the order written. *)
Definition scratch_names (env : Env) (args : Args) : list str :=
  map fst (writes (trace (main env args))).


(** What a scratch name keeps of a job. *)
Definition name_key (j : str * Block) : str * nat :=
  (safe_name (fst j), index_in_file (snd j)).

(** * Properties *)

(** ** Equality of texts *)

Lemma str_eqb_eq a b : str_eqb a b = true <-> a = b.
Proof. unfold str_eqb. destruct (list_eq_dec N.eq_dec a b); split; congruence. Qed.

(** ** The matcher decides the language of a pattern *)

Module ReFacts.
Import Re.

Lemma lang_seq r1 r2 w :
  lang (Seq r1 r2) w <-> exists a b, w = a ++ b /\ lang r1 a /\ lang r2 b.
Proof.
  split.
  - inversion 1; subst. eauto.
  - intros (a & b & -> & Ha & Hb). now constructor.
Qed.

Lemma lang_alt r1 r2 w : lang (Alt r1 r2) w <-> lang r1 w \/ lang r2 w.
Proof.
  split.
  - inversion 1; subst; auto.
  - intros [H | H]; [now apply L_alt_l | now apply L_alt_r].
Qed.

Lemma lang_void w : ~ lang Void w.
Proof. inversion 1. Qed.

Lemma lang_eps w : lang Eps w <-> w = [].
Proof. split; [now inversion 1 | intros ->; constructor]. Qed.

Lemma lang_chr c w : lang (Chr c) w <-> w = [c].
Proof. split; [now inversion 1 | intros ->; constructor]. Qed.

Lemma lang_space w : lang Space w <-> exists c, w = [c] /\ is_space c = true.
Proof.
  split.
  - inversion 1; subst. eauto.
  - intros (c & -> & H). now constructor.
Qed.

Lemma nullable_lang r : nullable r = true <-> lang r [].
Proof.
  induction r; simpl.
  - split; [discriminate | intro H; now apply lang_void in H].
  - rewrite lang_eps. tauto.
  - rewrite lang_chr. split; discriminate.
  - rewrite lang_space. split; [discriminate | now intros (c & ? & _)].
  - rewrite andb_true_iff, IHr1, IHr2, lang_seq. split.
    + intros [H1 H2]. now exists [], [].
    + intros (a & b & E & Ha & Hb). symmetry in E.
      apply app_eq_nil in E as [-> ->]. now split.
  - rewrite orb_true_iff, IHr1, IHr2, lang_alt. tauto.
  - split; [constructor | reflexivity].
Qed.

Lemma star_cons r c s :
  lang (Star r) (c :: s) ->
  exists s1 s2, s = s1 ++ s2 /\ lang r (c :: s1) /\ lang (Star r) s2.
Proof.
  intro H. remember (Star r) as q eqn:Eq. remember (c :: s) as w eqn:Ew.
  revert Eq Ew.
  induction H as [| | | | | | |q' s1 s2 H1 _ H2 IH2]; try discriminate.
  intros Eq Ew. injection Eq as ->.
  destruct s1 as [|d s1]; simpl in Ew.
  - now apply IH2.
  - injection Ew as E1 E2. subst. now exists s1, s2.
Qed.

Lemma deriv_lang r : forall c s, lang (deriv c r) s <-> lang r (c :: s).
Proof.
  induction r; intros c0 s; simpl.
  - split; intro H; now apply lang_void in H.
  - rewrite lang_eps. split; [intro H; now apply lang_void in H | discriminate].
  - rewrite lang_chr. destruct (N.eqb_spec c0 c) as [->|Hne].
    + rewrite lang_eps. split; congruence.
    + split; [intro H; now apply lang_void in H | congruence].
  - rewrite lang_space. destruct (is_space c0) eqn:Hs.
    + rewrite lang_eps. split; [intros ->; eauto | intros (d & E & _); congruence].
    + split; [intro H; now apply lang_void in H |].
      intros (d & E & Hd). congruence.
  - assert (Hseq : lang (Seq (deriv c0 r1) r2) s <->
              exists a b, s = a ++ b /\ lang r1 (c0 :: a) /\ lang r2 b).
    { rewrite lang_seq. split; intros (a & b & E & Ha & Hb); exists a, b;
        repeat split; auto; now apply IHr1. }
    rewrite (lang_seq r1 r2 (c0 :: s)).
    destruct (nullable r1) eqn:Hn.
    + rewrite lang_alt, Hseq, IHr2. split.
      * intros [(a & b & -> & Ha & Hb) | H].
        -- now exists (c0 :: a), b.
        -- exists [], (c0 :: s). repeat split; auto. now apply nullable_lang.
      * intros (a & b & E & Ha & Hb). destruct a as [|d a]; simpl in E.
        -- right. now subst b.
        -- injection E as E1 E2. subst. left. now exists a, b.
    + rewrite Hseq. split.
      * intros (a & b & -> & Ha & Hb). now exists (c0 :: a), b.
      * intros (a & b & E & Ha & Hb). destruct a as [|d a]; simpl in E.
        -- apply nullable_lang in Ha. congruence.
        -- injection E as E1 E2. subst. now exists a, b.
  - rewrite !lang_alt, IHr1, IHr2. tauto.
  - rewrite lang_seq. split.
    + intros (a & b & -> & Ha & Hb). apply IHr in Ha.
      change (c0 :: a ++ b) with ((c0 :: a) ++ b). now constructor.
    + intro H. apply star_cons in H as (s1 & s2 & -> & Ha & Hb).
      exists s1, s2. repeat split; auto. now apply IHr.
Qed.

Lemma matches_lang r s : matches r s = true <-> lang r s.
Proof.
  revert r. induction s as [|c s IH]; intro r; simpl.
  - apply nullable_lang.
  - rewrite IH. apply deriv_lang.
Qed.

Lemma lang_lit s w : lang (Lit s) w <-> w = s.
Proof.
  revert w. induction s as [|c s IH]; intro w; simpl.
  - apply lang_eps.
  - rewrite lang_seq. split.
    + intros (a & b & -> & Ha & Hb). apply lang_chr in Ha. apply IH in Hb.
      now subst.
    + intros ->. exists [c], s. repeat split; [apply lang_chr | apply IH]; auto.
Qed.

Lemma lang_spaces w :
  lang (Star Space) w <-> Forall (fun c => is_space c = true) w.
Proof.
  split.
  - intro H. remember (Star Space) as q eqn:Eq. revert Eq.
    induction H as [| | | | | | |q' s1 s2 H1 _ H2 IH2]; try discriminate.
    + constructor.
    + intros Eq. injection Eq as ->. apply Forall_app. split; [|now apply IH2].
      apply lang_space in H1 as (c & -> & Hc). now repeat constructor.
  - induction 1 as [|c w Hc _ IH].
    + constructor.
    + change (c :: w) with ([c] ++ w). constructor; [now constructor | assumption].
Qed.

Lemma lang_dollar w : lang Dollar w <-> w = [] \/ w = [LF].
Proof. unfold Dollar. now rewrite lang_alt, lang_eps, lang_chr. Qed.

End ReFacts.

(** A trailing line feed is whitespace, so the [$] of the patterns never
    adds a line the [\s*] before it would not take. *)
Lemma spaces_dollar a b :
  all_space a -> b = [] \/ b = [LF] -> all_space (a ++ b).
Proof.
  intros Ha [-> | ->]; apply Forall_app; split; auto; repeat constructor.
Qed.

(** The lines [END_FENCE_RE] matches. *)
Lemma end_fence_iff line :
  re_match END_FENCE_RE line = true <->
  exists ws1 ws2, all_space ws1 /\ all_space ws2
                  /\ line = ws1 ++ lit "```" ++ ws2.
Proof.
  unfold re_match, END_FENCE_RE. rewrite ReFacts.matches_lang. split.
  - intro H.
    apply ReFacts.lang_seq in H as (a & r1 & -> & Ha & H).
    apply ReFacts.lang_seq in H as (t & r2 & -> & Ht & H).
    apply ReFacts.lang_seq in H as (b & e & -> & Hb & He).
    apply ReFacts.lang_lit in Ht. subst t.
    apply ReFacts.lang_spaces in Ha, Hb. apply ReFacts.lang_dollar in He.
    exists a, (b ++ e). repeat split; auto using spaces_dollar.
  - intros (ws1 & ws2 & H1 & H2 & ->).
    constructor; [now apply ReFacts.lang_spaces|].
    constructor; [now apply ReFacts.lang_lit|].
    rewrite <- (app_nil_r ws2).
    constructor; [now apply ReFacts.lang_spaces|].
    apply ReFacts.lang_dollar. now left.
Qed.

(** The lines [FENCE_RE] matches. *)
Lemma fence_iff line :
  re_match FENCE_RE line = true <->
  exists ws1 tag ws2, all_space ws1 /\ all_space ws2
    /\ (tag = lit "mermaid" \/ tag = lit "mermaidjs")
    /\ line = ws1 ++ lit "```" ++ tag ++ ws2.
Proof.
  unfold re_match, FENCE_RE. rewrite ReFacts.matches_lang. split.
  - intro H.
    apply ReFacts.lang_seq in H as (a & r1 & -> & Ha & H).
    apply ReFacts.lang_seq in H as (t & r2 & -> & Ht & H).
    apply ReFacts.lang_seq in H as (g & r3 & -> & Hg & H).
    apply ReFacts.lang_seq in H as (b & e & -> & Hb & He).
    apply ReFacts.lang_lit in Ht. subst t.
    apply ReFacts.lang_spaces in Ha, Hb. apply ReFacts.lang_dollar in He.
    exists a, g, (b ++ e). repeat split; auto using spaces_dollar.
    apply ReFacts.lang_alt in Hg as [Hx | Hx];
      apply ReFacts.lang_lit in Hx; auto.
  - intros (ws1 & tag & ws2 & H1 & H2 & Ht & ->).
    constructor; [now apply ReFacts.lang_spaces|].
    constructor; [now apply ReFacts.lang_lit|].
    constructor.
    + destruct Ht as [-> | ->];
        [apply Re.L_alt_l | apply Re.L_alt_r]; now apply ReFacts.lang_lit.
    + rewrite <- (app_nil_r ws2).
      constructor; [now apply ReFacts.lang_spaces|].
      apply ReFacts.lang_dollar. now left.
Qed.

(** ** The codec under the permissive handlers *)

Lemma decode_from_ignore_total s :
  forall skip, exists t, utf8_decode_from Ignore skip s = Ok t.
Proof.
  induction s as [|ch s IH]; intro skip; simpl.
  - now exists [].
  - destruct skip as [|k]; [|apply IH].
    destruct (utf8_next ch s) as [cp n|n].
    + destruct (IH (n - 1)) as [t Ht]. rewrite Ht. simpl. eauto.
    + apply IH.
Qed.

Lemma decode_from_replace_total s :
  forall skip, exists t, utf8_decode_from Replace skip s = Ok t.
Proof.
  induction s as [|ch s IH]; intro skip; simpl.
  - now exists [].
  - destruct skip as [|k]; [|apply IH].
    destruct (utf8_next ch s) as [cp n|n];
      destruct (IH (n - 1)) as [t Ht]; rewrite Ht; simpl; eauto.
Qed.

(** On well-formed input the handler is never consulted. *)
Lemma decode_from_strict_ok h s :
  forall skip t,
    utf8_decode_from Strict skip s = Ok t -> utf8_decode_from h skip s = Ok t.
Proof.
  induction s as [|ch s IH]; intros skip t; simpl.
  - auto.
  - destruct skip as [|k]; [|apply IH].
    destruct (utf8_next ch s) as [cp n|n]; [|discriminate].
    destruct (utf8_decode_from Strict (n - 1) s) as [u|e] eqn:E; [|discriminate].
    simpl. intros [= <-]. now rewrite (IH _ _ E).
Qed.

Lemma decode_ignore_total b : exists t, decode Ignore b = Ok t.
Proof. apply decode_from_ignore_total. Qed.

Lemma decode_strict_ok h b t : decode Strict b = Ok t -> decode h b = Ok t.
Proof. apply decode_from_strict_ok. Qed.

Lemma decode_ignore_lossy b : decode Ignore b = Ok (lossy b).
Proof. unfold lossy. now destruct (decode_ignore_total b) as [t ->]. Qed.

(** ** Reading a document never fails *)

Lemma read_lines_file env path data :
  fs env path = RegularFile data -> read_lines env path = Ok (lines_of data).
Proof.
  intro Hf. unfold read_lines, read_text, lines_of. rewrite Hf.
  rewrite decode_ignore_lossy.
  destruct (decode Strict data) as [t|[]] eqn:E; simpl; auto.
  - apply (decode_strict_ok Ignore) in E. rewrite decode_ignore_lossy in E.
    now injection E as ->.
  - (* the codec raises nothing but UnicodeDecodeError *)
    exfalso. revert E. unfold decode. generalize 0 as skip.
    induction (map to_N data) as [|ch s IH]; intro skip; simpl; [discriminate|].
    destruct skip; [|apply IH].
    destruct (utf8_next ch s); [|discriminate].
    specialize (IH (n - 1)).
    destruct (utf8_decode_from Strict (n - 1) s); simpl; [discriminate|].
    intros [= ->]. now apply IH.
Qed.

Lemma find_mermaid_blocks_ok env path :
  find_mermaid_blocks env path = Ok (blocks_of env path).
Proof.
  unfold find_mermaid_blocks, blocks_of, is_file.
  destruct (fs env path) as [| |data] eqn:Hf; simpl; auto.
  now rewrite (read_lines_file _ _ _ Hf).
Qed.

(** ** The scanning loop *)

Module ScanFacts.
Import Scan.

Lemma run_app path l1 : forall st i l2,
  run path st i (l1 ++ l2) = run path (run path st i l1) (i + length l1) l2.
Proof.
  induction l1 as [|x l1 IH]; intros st i l2; simpl.
  - now rewrite Nat.add_0_r.
  - rewrite IH. f_equal. lia.
Qed.

(** A turn of the loop adds a block only on a closing fence met inside a
    block, and then exactly one, numbered next. *)
Lemma step_blocks path st i line :
  (blocks (step path st i line) = blocks st
   /\ block_idx (step path st i line) = block_idx st
   /\ ~ (in_block st = true /\ re_match END_FENCE_RE line = true))
  \/ (in_block st = true /\ re_match END_FENCE_RE line = true
      /\ blocks (step path st i line) = blocks st ++ [emitted path st]
      /\ block_idx (step path st i line) = S (block_idx st)).
Proof.
  unfold step.
  destruct (in_block st) eqn:Hin; simpl.
  - destruct (re_match END_FENCE_RE line) eqn:He; simpl.
    + right. auto.
    + left. repeat split; auto. intros [_ ?]; discriminate.
  - destruct (re_match FENCE_RE line); simpl;
      left; repeat split; auto; intros [? _]; discriminate.
Qed.

Lemma numbered_init : numbered init.
Proof. reflexivity. Qed.

Lemma numbered_step path st i line :
  numbered st -> numbered (step path st i line).
Proof.
  unfold numbered. intro H.
  destruct (step_blocks path st i line) as [(Hb & Hi & _) | (_ & _ & Hb & Hi)];
    rewrite Hb, Hi; auto.
  rewrite map_app, H, seq_S. reflexivity.
Qed.

Lemma numbered_run path lines : forall st i,
  numbered st -> numbered (run path st i lines).
Proof.
  induction lines as [|l lines IH]; intros st i H; simpl; auto.
  apply IH. now apply numbered_step.
Qed.

Lemma numbered_length st : numbered st -> length (blocks st) = block_idx st.
Proof.
  unfold numbered. intro H.
  rewrite <- (length_map index_in_file), H. apply length_seq.
Qed.

(** Lines without a closing fence emit nothing. *)
Lemma run_no_close path rest : forall st i,
  Forall (fun l => re_match END_FENCE_RE l = false) rest ->
  blocks (run path st i rest) = blocks st.
Proof.
  induction rest as [|l rest IH]; intros st i H; simpl; auto.
  inversion H as [|? ? Hl Hrest]; subst.
  rewrite IH by assumption.
  destruct (step_blocks path st i l) as [(Hb & _) | (_ & He & _)]; auto.
  congruence.
Qed.

End ScanFacts.

Lemma scan_lines_numbered path lines :
  map index_in_file (scan_lines path lines)
  = seq 1 (length (scan_lines path lines)).
Proof.
  unfold scan_lines.
  pose proof (ScanFacts.numbered_run path lines _ 1 ScanFacts.numbered_init) as H.
  rewrite (ScanFacts.numbered_length _ H). exact H.
Qed.

Lemma blocks_of_numbered env path :
  map index_in_file (blocks_of env path) = seq 1 (length (blocks_of env path)).
Proof.
  unfold blocks_of. destruct (fs env path); auto using scan_lines_numbered.
Qed.

(** ** Lines of a non-empty text *)

Lemma splitlines_from_nonempty s : forall cur,
  cur <> [] \/ s <> [] -> splitlines_from cur s <> [].
Proof.
  induction s as [|c s IH]; intros cur H; simpl.
  - destruct cur; [destruct H; congruence | discriminate].
  - destruct (is_linebreak c); [discriminate|].
    apply IH. left. discriminate.
Qed.

Lemma splitlines_nonempty s : nonempty s = true -> splitlines s <> [].
Proof.
  intro H. apply splitlines_from_nonempty. right. now destruct s.
Qed.

(** ** What a run leaves behind *)

Lemma writes_app a b : writes (a ++ b) = writes a ++ writes b.
Proof.
  induction a as [|[] a IH]; simpl; auto. now rewrite IH.
Qed.

Lemma runs_app a b : runs (a ++ b) = runs a ++ runs b.
Proof.
  induction a as [|[] a IH]; simpl; auto. now rewrite IH.
Qed.

Lemma reports_writes t : reports t -> writes t = [].
Proof.
  induction 1 as [|[] t H _ IH]; simpl; auto; discriminate.
Qed.

Lemma reports_runs t : reports t -> runs t = [].
Proof.
  induction 1 as [|[] t H _ IH]; simpl; auto; discriminate.
Qed.

Lemma failures_app a b : failures (a ++ b) = failures a + failures b.
Proof. unfold failures. now rewrite filter_app, length_app. Qed.

Lemma failures_zero rs :
  failures rs = 0 <-> forallb (fun r => run_ok (snd r)) rs = true.
Proof.
  unfold failures. induction rs as [|r rs IH]; simpl; [tauto|].
  destruct (run_ok (snd r)); simpl; [exact IH | split; discriminate].
Qed.

(** ** The monad *)

Lemma bind_ok {A B} (f : A -> M B) a t :
  bind (Ok a, t) f = (fst (f a), t ++ snd (f a)).
Proof. simpl. now destruct (f a). Qed.

Lemma for_each_emit {A} (f : A -> event) xs :
  for_each xs (fun x => emit (f x)) = (Ok tt, map f xs).
Proof.
  induction xs as [|x xs IH]; simpl; auto. now rewrite IH.
Qed.

Lemma bind_emit {B} (e : event) (f : unit -> M B) :
  bind (emit e) f = (fst (f tt), e :: snd (f tt)).
Proof. unfold emit. simpl. now destruct (f tt). Qed.

Lemma bind_ret {A B} (a : A) (f : A -> M B) : bind (ret a) f = f a.
Proof. unfold ret. simpl. now destruct (f a). Qed.

(** ** One block *)

Lemma run_mmdc_spec env call cmd_base in_file out_file theme config :
  let cmd := mmdc_cmd cmd_base in_file out_file theme config in
  let res := subprocess_run env call cmd in
  run_mmdc env call cmd_base in_file out_file theme config
  = (Ok (run_ok res, diagnostic res), [Run cmd res]).
Proof.
  intros cmd res. unfold run_mmdc. fold cmd. fold res. cbv zeta.
  rewrite bind_emit.
  destruct res as [rc out err|e]; [|reflexivity].
  unfold lift. rewrite decode_ignore_lossy. reflexivity.
Qed.

Lemma block_report_reports args md b res : reports (block_report args md b res).
Proof.
  unfold block_report, reports.
  destruct (run_ok res), (quiet args); repeat constructor.
  apply Forall_forall. intros x Hx. apply in_map_iff in Hx.
  now destruct Hx as (? & <- & _).
Qed.

Lemma splitlines_nil : splitlines [] = [].
Proof. reflexivity. Qed.

Lemma check_block_spec env args cmd_base tmpdir md b failed total :
  let j := (md, b) in
  let res := subprocess_run env total (job_cmd args cmd_base tmpdir j) in
  check_block env args cmd_base tmpdir md b failed total
  = (Ok (if run_ok res then failed else S failed),
     WriteText (scratch_in tmpdir j) (content b)
     :: Run (job_cmd args cmd_base tmpdir j) res
     :: block_report args md b res).
Proof.
  intros j res. subst j res.
  unfold check_block, job_cmd, scratch_in, scratch_out, block_report.
  cbv zeta. cbn [fst snd].
  rewrite bind_emit, run_mmdc_spec. cbv zeta.
  set (res := subprocess_run env total _).
  rewrite bind_ok. cbn [app].
  destruct (run_ok res).
  - destruct (quiet args); reflexivity.
  - destruct (nonempty (diagnostic res)) eqn:Hm.
    + pose proof (splitlines_nonempty _ Hm) as Hne.
      destruct (splitlines (diagnostic res)) as [|l ls]; [congruence|].
      rewrite bind_ret, bind_emit.
      destruct (quiet args); cbn [negb andb tl].
      * reflexivity.
      * rewrite for_each_emit, bind_ok. cbn [fst snd ret app].
        now rewrite app_nil_r.
    + destruct (diagnostic res); [|discriminate].
      rewrite splitlines_nil, bind_ret, bind_emit, andb_false_r.
      destruct (quiet args); reflexivity.
Qed.

(** ** The loops *)

Section Loops.

Variables (env : Env) (args : Args) (cmd_base : list str) (tmpdir : str).

Let events := job_events env args cmd_base tmpdir.
Let calls := job_runs env args cmd_base tmpdir.

Lemma job_events_app k a b :
  events k (a ++ b) = events k a ++ events (k + length a) b.
Proof.
  subst events. revert k. induction a as [|j a IH]; intro k; simpl.
  - now rewrite Nat.add_0_r.
  - replace (k + S (length a)) with (S k + length a) by lia.
    now rewrite IH, app_assoc.
Qed.

Lemma job_runs_app k a b :
  calls k (a ++ b) = calls k a ++ calls (k + length a) b.
Proof.
  subst calls. revert k. induction a as [|j a IH]; intro k; simpl.
  - now rewrite Nat.add_0_r.
  - replace (k + S (length a)) with (S k + length a) by lia.
    now rewrite IH.
Qed.

Lemma runs_job_events k js : runs (events k js) = calls k js.
Proof.
  subst events calls. revert k. induction js as [|j js IH]; intro k; simpl; auto.
  rewrite runs_app, (reports_runs _ (block_report_reports _ _ _ _)), IH.
  reflexivity.
Qed.

Lemma writes_job_events k js : writes (events k js) = map (job_write tmpdir) js.
Proof.
  subst events. revert k. induction js as [|j js IH]; intro k; simpl; auto.
  rewrite writes_app, (reports_writes _ (block_report_reports _ _ _ _)), IH.
  reflexivity.
Qed.

Lemma job_runs_length k js : length (calls k js) = length js.
Proof.
  subst calls. revert k. induction js as [|j js IH]; intro k; simpl; auto.
Qed.

Lemma check_blocks_spec md blocks : forall failed total,
  let js := map (pair md) blocks in
  check_blocks env args cmd_base tmpdir md blocks failed total
  = (Ok (failed + failures (calls total js), total + length js),
     events total js).
Proof.
  subst events calls.
  induction blocks as [|b blocks IH]; intros failed total; simpl.
  - unfold ret. now rewrite !Nat.add_0_r.
  - rewrite check_block_spec. cbv zeta. rewrite bind_ok, IH. cbn [fst snd].
    unfold failures at 2. cbn [filter snd].
    set (res := subprocess_run env (S total) _).
    destruct (run_ok res); cbn [negb length];
      rewrite ?Nat.add_succ_r; reflexivity.
Qed.

Lemma check_files_spec files : forall failed total found_any,
  let js := jobs env files in
  check_files env args cmd_base tmpdir files failed total found_any
  = (Ok (failed + failures (calls total js), total + length js,
         if nonempty js then 1 else found_any),
     events total js).
Proof.
  induction files as [|md files IH]; intros failed total found_any.
  - simpl. unfold ret. now rewrite !Nat.add_0_r.
  - cbn [check_files]. rewrite find_mermaid_blocks_ok.
    change (lift (Ok (blocks_of env md))) with (ret (blocks_of env md)).
    rewrite bind_ret. unfold jobs in *. cbn [flat_map].
    destruct (blocks_of env md) as [|b bl] eqn:Hb.
    + cbn [map app]. apply IH.
    + rewrite check_blocks_spec. cbv zeta. rewrite bind_ok, IH.
      cbn [fst snd].
      rewrite job_events_app, job_runs_app, failures_app, !length_app.
      rewrite !Nat.add_assoc.
      replace (nonempty (map (pair md) (b :: bl) ++ _)) with true
        by reflexivity.
      now destruct (nonempty (flat_map _ files)).
Qed.

End Loops.

(** ** The whole run *)

Lemma cleanup_spec env args tmpdir :
  cleanup env args tmpdir = (Ok tt, cleanup_events env args tmpdir).
Proof.
  unfold cleanup, cleanup_events.
  destruct (keep args), (cleanup_ok env), (quiet args); reflexivity.
Qed.

Lemma check_all_spec env args cmd_base tmpdir files :
  let js := jobs env files in
  let nfailed := failures (job_runs env args cmd_base tmpdir 0 js) in
  check_all env args cmd_base tmpdir files
  = (Ok (if (nfailed =? 0)%nat then 0 else 1),
     job_events env args cmd_base tmpdir 0 js ++ closing (length js) nfailed).
Proof.
  intros js nfailed. unfold check_all.
  rewrite check_files_spec, bind_ok. fold js. fold nfailed.
  cbn [Nat.add fst snd]. unfold closing.
  destruct js as [|j js'] eqn:Ej.
  - reflexivity.
  - cbn [nonempty Nat.eqb length]. rewrite !bind_emit. reflexivity.
Qed.

Lemma main_spec env args cmd_base :
  which_mmdc env = Some cmd_base ->
  config_missing env args = false ->
  nonempty (input_files env args) = true ->
  let tmpdir := mkdtemp env in
  let js := jobs env (input_files env args) in
  let nfailed := failures (job_runs env args cmd_base tmpdir 0 js) in
  main env args
  = (Ok (if (nfailed =? 0)%nat then 0 else 1),
     Mkdtemp tmpdir
     :: (job_events env args cmd_base tmpdir 0 js ++ closing (length js) nfailed)
     ++ cleanup_events env args tmpdir).
Proof.
  intros Hw Hc Hf tmpdir js nfailed. unfold main.
  rewrite Hw, Hc, Hf. cbn [negb]. rewrite bind_emit.
  unfold finally. rewrite check_all_spec, cleanup_spec. reflexivity.
Qed.

Lemma main_env_error env args :
  env_error env args = true ->
  exists msgs, msgs <> [] /\ main env args = (Ok 2, map Stderr msgs).
Proof.
  unfold env_error, main. destruct (which_mmdc env) as [cmd_base|].
  - destruct (config_missing env args); simpl.
    + intros _. eexists [_]. split; [discriminate | reflexivity].
    + intros ->. eexists [_]. split; [discriminate | reflexivity].
  - intros _. eexists [_; _]. split; [discriminate | reflexivity].
Qed.

(** ** Scratch names tell blocks apart *)

Lemma digits_of_uint_digits d :
  Forall (fun c => is_digit c = true) (digits_of_uint d).
Proof. induction d; simpl; constructor; auto. Qed.

Lemma number_uint d : forall acc,
  fold_left (fun a c => 10 * a + N.to_nat (c - 48)) (digits_of_uint d) acc
  = Nat.of_uint_acc d acc.
Proof.
  induction d; intro acc; simpl; auto;
    rewrite IHd, Nat.tail_mul_spec; f_equal; lia.
Qed.

Lemma number_dec n : number (dec n) = n.
Proof.
  unfold number, dec. rewrite number_uint. apply Unsigned.of_to.
Qed.

Lemma number_zeros k s : number (repeat 48%N k ++ s) = number s.
Proof.
  unfold number. rewrite fold_left_app. f_equal.
  induction k as [|k IH]; simpl; auto.
Qed.

Lemma number_dec03 n : number (dec03 n) = n.
Proof. unfold dec03. cbv zeta. now rewrite number_zeros, number_dec. Qed.

Lemma dec03_inj m n : dec03 m = dec03 n -> m = n.
Proof.
  intro H. rewrite <- (number_dec03 m), <- (number_dec03 n). now f_equal.
Qed.

Lemma dec03_digits n : Forall (fun c => is_digit c = true) (dec03 n).
Proof.
  unfold dec03, dec. cbv zeta. apply Forall_app. split.
  - apply Forall_forall. intros c Hc. apply repeat_spec in Hc. now subst.
  - apply digits_of_uint_digits.
Qed.

(** Two runs of digits, each ended by something that is no digit, are
    equal when the texts they start are. *)
Lemma digit_run_unique (a b : str) x y r r' :
  Forall (fun c => is_digit c = true) a ->
  Forall (fun c => is_digit c = true) b ->
  is_digit x = false -> is_digit y = false ->
  a ++ x :: r = b ++ y :: r' -> a = b /\ x :: r = y :: r'.
Proof.
  intros Ha. revert b. induction Ha as [|c a Hc _ IH]; intros b Hb Hx Hy E.
  - destruct b as [|d b]; simpl in E; [now split|].
    injection E as -> _. inversion Hb; subst. congruence.
  - destruct b as [|d b]; simpl in E.
    + injection E as -> _. congruence.
    + injection E as -> E. inversion Hb; subst.
      destruct (IH b) as [-> ?]; auto.
Qed.

(** The stem determines the sanitized path and the block index. *)
Lemma stem_inj md1 b1 md2 b2 :
  stem_of md1 b1 = stem_of md2 b2 ->
  safe_name md1 = safe_name md2 /\ index_in_file b1 = index_in_file b2.
Proof.
  unfold stem_of. intro E.
  rewrite !app_assoc in E. apply app_inv_tail in E.
  apply (f_equal (@rev N)) in E. rewrite !rev_app_distr in E.
  change (rev (lit ".block_")) with (95%N :: rev (lit ".block")) in E.
  cbn [app] in E.
  apply digit_run_unique in E as [Ed Es]; auto;
    try (apply Forall_rev, dec03_digits).
  apply (f_equal (@rev N)) in Ed. rewrite !rev_involutive in Ed.
  apply dec03_inj in Ed. split; auto.
  injection Es as Es.
  apply (f_equal (@rev N)) in Es. now rewrite !rev_involutive in Es.
Qed.

Lemma scratch_in_inj tmpdir j1 j2 :
  scratch_in tmpdir j1 = scratch_in tmpdir j2 ->
  safe_name (fst j1) = safe_name (fst j2)
  /\ index_in_file (snd j1) = index_in_file (snd j2).
Proof.
  unfold scratch_in, joinpath. intro E.
  apply app_inv_head in E. apply app_inv_head in E. now apply stem_inj.
Qed.

(** ** Input expansion removes repeats *)

Lemma mem_In p seen : mem p seen = true <-> In p seen.
Proof.
  unfold mem. rewrite existsb_exists. split.
  - intros (x & Hx & E). apply str_eqb_eq in E. now subst.
  - intro H. exists p. split; auto. now apply str_eqb_eq.
Qed.

Lemma dedup_spec out : forall seen,
  NoDup (dedup seen out) /\ forall p, In p (dedup seen out) -> ~ In p seen.
Proof.
  induction out as [|p out IH]; intro seen; simpl.
  - split; [constructor | tauto].
  - destruct (mem p seen) eqn:Hm.
    + apply IH.
    + destruct (IH (p :: seen)) as [Hnd Hnot]. split.
      * constructor; auto. intro Hin. apply (Hnot p Hin). now left.
      * intros q [<- | Hq].
        -- intro Hin. apply mem_In in Hin. congruence.
        -- intro Hin. apply (Hnot q Hq). now right.
Qed.

Lemma expand_inputs_NoDup env patterns : NoDup (expand_inputs env patterns).
Proof. unfold expand_inputs. apply dedup_spec. Qed.

Lemma input_files_NoDup env args : NoDup (input_files env args).
Proof. unfold input_files. apply NoDup_filter, expand_inputs_NoDup. Qed.

(** ** Fences *)

Lemma step_closes path st i line :
  Scan.in_block st = true ->
  re_match END_FENCE_RE line = true ->
  Scan.step path st i line
  = {| Scan.in_block := false; Scan.start_line := Scan.start_line st;
       Scan.buf := []; Scan.block_idx := S (Scan.block_idx st);
       Scan.blocks := Scan.blocks st ++ [emitted path st] |}.
Proof. intros Hin He. unfold Scan.step. now rewrite Hin, He. Qed.

Lemma step_inside path st i line :
  Scan.in_block st = true ->
  re_match END_FENCE_RE line = false ->
  Scan.step path st i line
  = {| Scan.in_block := true; Scan.start_line := Scan.start_line st;
       Scan.buf := Scan.buf st ++ [line];
       Scan.block_idx := Scan.block_idx st; Scan.blocks := Scan.blocks st |}.
Proof. intros Hin He. unfold Scan.step. now rewrite Hin, He. Qed.

Lemma closes_block_iff line :
  closes_block line <-> re_match END_FENCE_RE line = true.
Proof.
  split.
  - intro H.
    destruct (H [] {| Scan.in_block := true; Scan.start_line := 0;
                      Scan.buf := []; Scan.block_idx := 0;
                      Scan.blocks := [] |} 0 eq_refl) as [Hin _].
    destruct (re_match END_FENCE_RE line) eqn:He; auto.
    rewrite step_inside in Hin by auto. discriminate.
  - intros He path st i Hin. rewrite step_closes by auto. now split.
Qed.

(** C7, as stated, fails: a line of four backticks is a line of three or
    more backticks, yet it does not close an open block; the scan takes it
    as content. *)
Lemma four_backticks_do_not_close :
  3 <= 4
  /\ re_match END_FENCE_RE (fence_line 4 [] []) = false
  /\ ~ closes_block (fence_line 4 [] [])
  /\ map content
       (scan_lines [] [lit "```mermaid"; lit "a"; lit "````"; lit "b"; lit "```"])
     = [lit "a" ++ [LF] ++ lit "````" ++ [LF] ++ lit "b"].
Proof.
  split; [lia|]. split; [reflexivity|]. split; [|reflexivity].
  rewrite closes_block_iff. discriminate.
Qed.

(** C7 (amended): the lines that close an open diagram block are exactly
    the lines made of three backticks, no more, between optional
    whitespace: on such a line the scan emits the block and leaves it, on
    any other line inside a block it does not. *)
Theorem closing_fence_is_three_backticks line :
  closes_block line
  <-> exists ws1 ws2,
        all_space ws1 /\ all_space ws2 /\ line = fence_line 3 ws1 ws2.
Proof. rewrite closes_block_iff. apply end_fence_iff. Qed.

Lemma closing_fence_is_three_backticks_witness :
  closes_block (fence_line 3 (lit "  ") [9%N]).
Proof.
  apply (closing_fence_is_three_backticks (fence_line 3 (lit "  ") [9%N])).
  exists (lit "  "), [9%N]. repeat split; repeat constructor.
Defined.

(** ** Block numbering *)

Lemma lstrip_spaces a r : all_space a -> lstrip (a ++ r) = lstrip r.
Proof.
  induction 1 as [|c a Hc _ IH]; simpl; auto. now rewrite Hc.
Qed.

(** An opening fence is not a closing fence. *)
Lemma fence_not_end line :
  re_match FENCE_RE line = true -> re_match END_FENCE_RE line = false.
Proof.
  intro Ho. destruct (re_match END_FENCE_RE line) eqn:He; auto. exfalso.
  apply end_fence_iff in He as (a & b & Ha & Hb & E).
  apply fence_iff in Ho as (a' & tag & b' & Ha' & Hb' & Ht & E').
  apply (f_equal lstrip) in E, E'.
  rewrite lstrip_spaces in E, E' by assumption.
  rewrite E in E'. change (lit "```") with [96; 96; 96]%N in E'.
  cbn [lstrip app is_space] in E'. injection E' as E'.
  destruct Ht as [-> | ->]; destruct b as [|c b]; try discriminate;
    inversion Hb; subst; injection E' as -> _; discriminate.
Qed.


Lemma scan_lines_snoc path pre line :
  exists new,
    scan_lines path (pre ++ [line]) = scan_lines path pre ++ new
    /\ (new = []
        \/ re_match END_FENCE_RE line = true
           /\ exists b, new = [b]
                /\ index_in_file b = S (length (scan_lines path pre))).
Proof.
  unfold scan_lines. rewrite ScanFacts.run_app. cbn [Scan.run].
  set (st := Scan.run path Scan.init 1 pre).
  assert (Hn : numbered st)
    by apply ScanFacts.numbered_run, ScanFacts.numbered_init.
  destruct (ScanFacts.step_blocks path st (1 + length pre) line)
    as [(Hb & _) | (_ & He & Hb & _)]; rewrite Hb.
  - exists []. rewrite app_nil_r. auto.
  - exists [emitted path st]. split; auto. right. split; auto.
    eexists. split; [reflexivity|]. simpl.
    now rewrite (ScanFacts.numbered_length _ Hn).
Qed.

Lemma scan_lines_no_close path pre rest :
  Forall (fun l => re_match END_FENCE_RE l = false) rest ->
  scan_lines path (pre ++ rest) = scan_lines path pre.
Proof.
  intro H. unfold scan_lines. rewrite ScanFacts.run_app.
  now apply ScanFacts.run_no_close.
Qed.

(** C5: the blocks the extractor returns for a document are numbered
    1, 2, 3, ... in the order returned; one more line adds a block only if
    it is a closing fence, and then one block, numbered next; and lines
    after which no closing fence comes (an opening fence left open, with
    all that follows it) add no block, and the extractor does not raise. *)
Theorem block_indices_contiguous env path :
  (exists bl,
     find_mermaid_blocks env path = Ok bl
     /\ map index_in_file bl = seq 1 (length bl))
  /\ (forall pre line, exists new,
        scan_lines path (pre ++ [line]) = scan_lines path pre ++ new
        /\ (new = []
            \/ re_match END_FENCE_RE line = true
               /\ exists b, new = [b]
                    /\ index_in_file b = S (length (scan_lines path pre))))
  /\ (forall pre open rest,
        re_match FENCE_RE open = true ->
        Forall (fun l => re_match END_FENCE_RE l = false) rest ->
        scan_lines path (pre ++ open :: rest) = scan_lines path pre).
Proof.
  split; [|split].
  - exists (blocks_of env path). split.
    + apply find_mermaid_blocks_ok.
    + apply blocks_of_numbered.
  - apply scan_lines_snoc.
  - intros pre open rest Ho Hr. apply scan_lines_no_close.
    constructor; auto using fence_not_end.
Qed.

Lemma block_indices_contiguous_witness :
  find_mermaid_blocks sample_env (lit "/docs/a.md")
  = Ok (blocks_of sample_env (lit "/docs/a.md"))
  /\ map index_in_file (blocks_of sample_env (lit "/docs/a.md")) = [1; 2]
  /\ scan_lines (lit "/docs/open.md") (lines_of doc_unterminated) = [].
Proof.
  destruct (block_indices_contiguous sample_env (lit "/docs/open.md"))
    as (_ & _ & Hopen).
  split; [apply find_mermaid_blocks_ok|]. split; [reflexivity|].
  apply (Hopen [lit "text"] (lit "```mermaid") [lit "graph LR"]).
  - reflexivity.
  - repeat constructor.
Defined.

(** ** Paths that are no regular file *)

(** C10: on a path that does not name an existing regular file (nothing
    there, or a directory) the extractor returns the empty list and does
    not raise. *)
Theorem not_a_file_no_blocks env path :
  fs env path = Missing \/ fs env path = Directory ->
  find_mermaid_blocks env path = Ok [].
Proof.
  intros [H | H]; unfold find_mermaid_blocks, is_file; now rewrite H.
Qed.

Lemma not_a_file_no_blocks_witness :
  find_mermaid_blocks sample_env (lit "/docs") = Ok []
  /\ find_mermaid_blocks sample_env (lit "/nowhere.md") = Ok [].
Proof.
  split.
  - apply (not_a_file_no_blocks sample_env (lit "/docs")). right. reflexivity.
  - apply (not_a_file_no_blocks sample_env (lit "/nowhere.md")). left.
    reflexivity.
Defined.

(** ** Documents that are not UTF-8 *)

Lemma main_returns env args : exists status, outcome (main env args) = Ok status.
Proof.
  destruct (env_error env args) eqn:He.
  - destruct (main_env_error _ _ He) as (msgs & _ & ->). now exists 2.
  - unfold env_error in He.
    destruct (which_mmdc env) as [cmd_base|] eqn:Hw; [|discriminate].
    apply orb_false_elim in He as [Hc Hf]. apply negb_false_iff in Hf.
    rewrite (main_spec _ _ _ Hw Hc Hf). eexists. reflexivity.
Qed.

(** C9: when the strict decode of a document raises, the extractor works
    on the text the permissive decode of the same bytes gives, which
    always exists; the extractor returns normally; the orchestrator goes
    on with the blocks found in that text and prints nothing about the
    document itself; and the run ends with an exit status, not with an
    exception. *)
Theorem undecodable_document_recovered env path data :
  fs env path = RegularFile data ->
  decode Strict data = Raise UnicodeDecodeError ->
  (exists text,
     decode Ignore data = Ok text
     /\ find_mermaid_blocks env path
        = Ok (scan_lines path (splitlines (translate_newlines text))))
  /\ (forall args cmd_base tmpdir rest failed total found_any,
        check_files env args cmd_base tmpdir (path :: rest)
          failed total found_any
        = match scan_lines path (lines_of data) with
          | [] => check_files env args cmd_base tmpdir rest
                    failed total found_any
          | blocks =>
              ' (failed, total) <- check_blocks env args cmd_base tmpdir path
                                     blocks failed total ;;
              check_files env args cmd_base tmpdir rest failed total 1
          end)
  /\ (forall args, exists status, outcome (main env args) = Ok status).
Proof.
  intros Hf Hd. split; [|split].
  - exists (lossy data). split; [apply decode_ignore_lossy|].
    rewrite find_mermaid_blocks_ok. unfold blocks_of. now rewrite Hf.
  - intros. cbn [check_files]. rewrite find_mermaid_blocks_ok.
    change (lift (Ok (blocks_of env path))) with (ret (blocks_of env path)).
    rewrite bind_ret. unfold blocks_of. rewrite Hf.
    destruct (scan_lines path (lines_of data)); reflexivity.
  - intro args. apply main_returns.
Qed.

Lemma undecodable_document_recovered_witness :
  decode Strict doc_bad_byte = Raise UnicodeDecodeError
  /\ exists text,
       decode Ignore doc_bad_byte = Ok text
       /\ find_mermaid_blocks sample_env (lit "/docs/bad.md")
          = Ok (scan_lines (lit "/docs/bad.md")
                  (splitlines (translate_newlines text))).
Proof.
  split; [reflexivity|].
  apply (undecodable_document_recovered sample_env (lit "/docs/bad.md")
           doc_bad_byte); reflexivity.
Defined.

(** ** The renderer invoker *)

(** C6, as stated, fails: the diagnostic is decoded with the handler that
    leaves malformed bytes out, not with the one that puts U+FFFD in
    their place.  For a subprocess that exits with status 1 and the
    standard error [sample_stderr] (the byte 0xFF, then "Parse error" and
    "line 2" on two lines), the invoker returns the text without the
    byte and without a replacement character. *)
Lemma diagnostic_is_not_replaced : ~ invoker_contract Replace.
Proof.
  intro H.
  destruct (H sample_env 2 [lit "mmdc"] (lit "in.mmd") (lit "out.svg")
              (lit "default") None 1%Z [] sample_stderr eq_refl)
    as (msg & Hd & Hr).
  vm_compute in Hd. injection Hd as <-. vm_compute in Hr. discriminate.
Qed.

(** C6 (amended): when the subprocess ran to completion, the invoker
    reports success exactly when its exit status is zero, and the
    diagnostic is the standard-error stream if that is non-empty, else the
    standard-output stream, decoded as UTF-8 with malformed bytes left out
    (a decode that never raises, and the plain decode on well-formed
    bytes), stripped of surrounding whitespace. *)
Theorem invoker_result env call cmd_base in_file out_file theme config
    rc out err :
  subprocess_run env call (mmdc_cmd cmd_base in_file out_file theme config)
  = Completed rc out err ->
  let stream := if nonempty err then err else out in
  (exists msg,
     decode Ignore stream = Ok msg
     /\ fst (run_mmdc env call cmd_base in_file out_file theme config)
        = Ok ((rc =? 0)%Z, strip msg)
     /\ (forall text, decode Strict stream = Ok text -> msg = text))
  /\ (exc_map fst
        (fst (run_mmdc env call cmd_base in_file out_file theme config))
      = Ok true <-> rc = 0%Z).
Proof.
  intros Hp stream. rewrite run_mmdc_spec. cbv zeta. rewrite Hp.
  cbn [fst run_ok diagnostic]. fold stream. split.
  - exists (lossy stream). split; [apply decode_ignore_lossy|].
    split; [reflexivity|].
    intros text Ht. apply (decode_strict_ok Ignore) in Ht.
    rewrite decode_ignore_lossy in Ht. now injection Ht.
  - cbn [exc_map fst].
    destruct (Z.eqb_spec rc 0); split; intro H; congruence.
Qed.

Lemma invoker_result_witness :
  exists msg,
    decode Ignore sample_stderr = Ok msg
    /\ fst (run_mmdc sample_env 2 [lit "mmdc"] (lit "in.mmd") (lit "out.svg")
              (lit "default") None)
       = Ok (false, strip msg).
Proof.
  destruct (invoker_result sample_env 2 [lit "mmdc"] (lit "in.mmd")
              (lit "out.svg") (lit "default") None 1%Z []
              sample_stderr eq_refl) as [(msg & Hd & Hr & _) _].
  exists msg. split; [exact Hd | exact Hr].
Defined.

(** ** Runs that stop before the first document *)

Lemma runs_stderr msgs : runs (map Stderr msgs) = [].
Proof. induction msgs; simpl; auto. Qed.

Lemma writes_stderr msgs : writes (map Stderr msgs) = [].
Proof. induction msgs; simpl; auto. Qed.

Lemma no_inputs_env_error env args :
  input_files env args = [] -> env_error env args = true.
Proof.
  intro H. unfold env_error. rewrite H.
  destruct (which_mmdc env); auto using orb_true_r.
Qed.

(** C8: when no input document resolves, the run ends with status 2,
    prints an error message on the error stream, and creates no scratch
    directory (nor writes a file, nor starts the renderer). *)
Theorem no_inputs_exit_2 env args :
  input_files env args = [] ->
  outcome (main env args) = Ok 2
  /\ (exists msg, In (Stderr msg) (trace (main env args)))
  /\ (forall dir, ~ In (Mkdtemp dir) (trace (main env args)))
  /\ writes (trace (main env args)) = []
  /\ runs (trace (main env args)) = [].
Proof.
  intro H. apply no_inputs_env_error in H.
  destruct (main_env_error _ _ H) as (msgs & Hne & ->).
  unfold outcome, trace. cbn [fst snd]. split; [reflexivity|].
  split; [|split; [|split]].
  - destruct msgs as [|m msgs]; [congruence|]. exists m. now left.
  - intros dir Hin. apply in_map_iff in Hin as (? & ? & _). discriminate.
  - apply writes_stderr.
  - apply runs_stderr.
Qed.

Lemma no_inputs_exit_2_witness :
  outcome (main sample_env
             (sample_args [lit "/nowhere/*.md"; lit "/missing.md"])) = Ok 2.
Proof.
  apply (no_inputs_exit_2 sample_env
           (sample_args [lit "/nowhere/*.md"; lit "/missing.md"])).
  reflexivity.
Defined.

(** ** Exit status *)

Lemma runs_closing n f : runs (closing n f) = [].
Proof. now destruct n. Qed.

Lemma writes_closing n f : writes (closing n f) = [].
Proof. now destruct n. Qed.

Lemma runs_cleanup env args tmpdir : runs (cleanup_events env args tmpdir) = [].
Proof.
  unfold cleanup_events.
  now destruct (keep args), (cleanup_ok env), (quiet args).
Qed.

Lemma writes_cleanup env args tmpdir :
  writes (cleanup_events env args tmpdir) = [].
Proof.
  unfold cleanup_events.
  now destruct (keep args), (cleanup_ok env), (quiet args).
Qed.

Lemma env_error_false env args :
  env_error env args = false ->
  exists cmd_base,
    which_mmdc env = Some cmd_base
    /\ config_missing env args = false
    /\ nonempty (input_files env args) = true.
Proof.
  unfold env_error. destruct (which_mmdc env) as [c|]; [|discriminate].
  intro H. apply orb_false_elim in H as [Hc Hf]. apply negb_false_iff in Hf.
  now exists c.
Qed.

Lemma main_runs env args cmd_base :
  which_mmdc env = Some cmd_base ->
  config_missing env args = false ->
  nonempty (input_files env args) = true ->
  runs (trace (main env args))
  = job_runs env args cmd_base (mkdtemp env) 0
      (jobs env (input_files env args)).
Proof.
  intros Hw Hc Hf. rewrite (main_spec _ _ _ Hw Hc Hf). unfold trace.
  cbn [snd runs]. rewrite !runs_app, runs_job_events, runs_closing, runs_cleanup.
  now rewrite !app_nil_r.
Qed.

Lemma main_writes env args cmd_base :
  which_mmdc env = Some cmd_base ->
  config_missing env args = false ->
  nonempty (input_files env args) = true ->
  writes (trace (main env args))
  = map (job_write (mkdtemp env)) (jobs env (input_files env args)).
Proof.
  intros Hw Hc Hf. rewrite (main_spec _ _ _ Hw Hc Hf). unfold trace.
  cbn [snd writes].
  rewrite !writes_app, writes_job_events, writes_closing, writes_cleanup.
  now rewrite !app_nil_r.
Qed.

(** C1: a run always ends with an exit status, which is 2 when the
    renderer cannot be found, the [--config] path does not exist or no
    input file resolves; otherwise 1 when some renderer invocation of the
    run failed, and 0 when all of them succeeded.  The renderer is
    invoked once per block found, so a run that finds no block (and has no
    environment error) ends with 0. *)
Theorem exit_status env args :
  outcome (main env args)
  = Ok (if env_error env args then 2
        else if forallb (fun r => run_ok (snd r)) (runs (trace (main env args)))
             then 0 else 1)
  /\ length (runs (trace (main env args)))
     = if env_error env args then 0
       else length (jobs env (input_files env args)).
Proof.
  destruct (env_error env args) eqn:He.
  - destruct (main_env_error _ _ He) as (msgs & _ & ->).
    unfold outcome, trace. cbn [fst snd]. now rewrite runs_stderr.
  - destruct (env_error_false _ _ He) as (cmd_base & Hw & Hc & Hf).
    rewrite (main_runs _ _ _ Hw Hc Hf), job_runs_length.
    split; [|reflexivity].
    rewrite (main_spec _ _ _ Hw Hc Hf). unfold outcome. cbv zeta. cbn [fst].
    set (rs := job_runs _ _ _ _ _ _).
    pose proof (failures_zero rs) as Hz.
    destruct (forallb _ rs).
    + rewrite (proj2 Hz eq_refl). reflexivity.
    + destruct (failures rs) eqn:E; [|reflexivity].
      discriminate (proj1 Hz eq_refl).
Qed.

(** ** One invocation per block *)

Lemma job_runs_cmds env args cmd_base tmpdir js : forall k,
  map fst (job_runs env args cmd_base tmpdir k js)
  = map (job_cmd args cmd_base tmpdir) js.
Proof.
  induction js as [|j js IH]; intro k; simpl; auto. now rewrite IH.
Qed.

Lemma jobs_app env l1 l2 : jobs env (l1 ++ l2) = jobs env l1 ++ jobs env l2.
Proof. unfold jobs. apply flat_map_app. Qed.

Lemma jobs_skip env l1 md l2 :
  blocks_of env md = [] -> jobs env (l1 ++ md :: l2) = jobs env (l1 ++ l2).
Proof.
  intro H. rewrite !jobs_app. f_equal. unfold jobs. simpl. now rewrite H.
Qed.

(** C2: in a run that gets as far as the documents, the renderer
    invocations are, in order, one per block, document after document and
    within a document block after block, each on the scratch file just
    written with this block's content; the summary reports as checked the
    number of blocks of all documents together (or, when there is none,
    says so); and a document without blocks can be taken out of the list
    without any change to what the orchestrator prints or returns. *)
Theorem one_invocation_per_block env args cmd_base :
  which_mmdc env = Some cmd_base ->
  config_missing env args = false ->
  nonempty (input_files env args) = true ->
  let tmpdir := mkdtemp env in
  let js := jobs env (input_files env args) in
  let t := trace (main env args) in
  map fst (runs t) = map (job_cmd args cmd_base tmpdir) js
  /\ writes t = map (job_write tmpdir) js
  /\ match js with
     | [] => In (Stdout (lit "No Mermaid blocks found in inputs.")) t
     | _ => In (Stdout (lit "Checked: " ++ dec (length js)
                        ++ lit "   Failed: " ++ dec (failures (runs t)))) t
     end
  /\ (forall l1 md l2,
        blocks_of env md = [] ->
        check_all env args cmd_base tmpdir (l1 ++ md :: l2)
        = check_all env args cmd_base tmpdir (l1 ++ l2)).
Proof.
  intros Hw Hc Hf tmpdir js t. subst t.
  rewrite (main_runs _ _ _ Hw Hc Hf), (main_writes _ _ _ Hw Hc Hf).
  fold tmpdir. fold js. split; [apply job_runs_cmds|]. split; [reflexivity|].
  split.
  - rewrite (main_spec _ _ _ Hw Hc Hf). cbv zeta. fold tmpdir. fold js.
    unfold trace. cbn [snd]. 
    destruct js as [|j js'] eqn:Ej.
    + right. apply in_or_app. left. apply in_or_app. right. now left.
    + right. apply in_or_app. left. apply in_or_app. right.
      right. now left.
  - intros l1 md l2 Hb. now rewrite !check_all_spec, (jobs_skip _ _ _ _ Hb).
Qed.

Lemma one_invocation_per_block_witness :
  length (runs (trace (main sample_env docs_args))) = 3
  /\ In (Stdout (lit "Checked: 3   Failed: 1"))
       (trace (main sample_env docs_args)).
Proof.
  destruct (one_invocation_per_block sample_env docs_args [lit "/usr/bin/mmdc"]
              eq_refl eq_refl eq_refl) as (Hr & _ & Hs & _).
  split.
  - rewrite <- (length_map fst), Hr. reflexivity.
  - exact Hs.
Defined.

(** ** Content round trip *)

Module SpanFacts.
Import Scan.





End SpanFacts.





(** ** Distinct scratch names *)

Lemma NoDup_map_reflect {A B C} (f : A -> B) (g : A -> C) l :
  (forall x y, In x l -> In y l -> f x = f y -> g x = g y) ->
  NoDup (map g l) -> NoDup (map f l).
Proof.
  induction l as [|x l IH]; intros Hfg Hnd; simpl; [constructor|].
  inversion Hnd as [|? ? Hx Hl]; subst. constructor.
  - intro Hin. apply Hx. apply in_map_iff in Hin as (y & E & Hy).
    apply in_map_iff. exists y. split; auto.
    apply Hfg; simpl; auto.
  - apply IH; auto. intros y z Hy Hz. apply Hfg; simpl; auto.
Qed.

Lemma jobs_keys_NoDup env files :
  NoDup files ->
  (forall f1 f2, In f1 files -> In f2 files ->
                 safe_name f1 = safe_name f2 -> f1 = f2) ->
  NoDup (map name_key (jobs env files)).
Proof.
  induction 1 as [|md files Hmd Hnd IH]; intro Hinj; [constructor|].
  unfold jobs in *. cbn [flat_map]. rewrite map_app. apply NoDup_app.
  - rewrite map_map. unfold name_key. cbn [fst snd].
    apply (NoDup_map_inv snd). rewrite map_map. cbn [snd].
    rewrite blocks_of_numbered. apply seq_NoDup.
  - apply IH. intros f1 f2 H1 H2. apply Hinj; simpl; auto.
  - intros key Hk1 Hk2.
    apply in_map_iff in Hk1 as (j1 & <- & Hj1).
    apply in_map_iff in Hj1 as (b1 & <- & _).
    apply in_map_iff in Hk2 as (j2 & E & Hj2).
    apply in_flat_map in Hj2 as (md2 & Hmd2 & Hj2).
    apply in_map_iff in Hj2 as (b2 & <- & _).
    unfold name_key in E. cbn [fst snd] in E. injection E as E _.
    apply Hmd. rewrite <- (Hinj md2 md); simpl; auto.
Qed.

(** C4, as stated, fails: [/x/y.md] and [/x_y.md] are two input
    documents, and the first block of the one gets the scratch name of the
    first block of the other, since the separator and the underscore are
    both written as an underscore. *)
Lemma sanitized_names_clash :
  NoDup (input_files sample_env clash_args)
  /\ ~ NoDup (scratch_names sample_env clash_args).
Proof.
  split.
  - apply input_files_NoDup.
  - intro H. vm_compute in H.
    inversion H as [|? ? _ H1]. inversion H1 as [|? ? Hn _].
    apply Hn. right. left. reflexivity.
Qed.

(** C4 (amended): the scratch input names of a run are pairwise distinct
    whenever no two input documents of the run have the same sanitized
    path; within one document they always are.  (Sanitizing writes every
    character outside [A-Za-z0-9_.-] as an underscore, so paths that
    differ only in such characters get the same names.) *)
Theorem scratch_names_distinct env args :
  (forall f1 f2,
     In f1 (input_files env args) -> In f2 (input_files env args) ->
     safe_name f1 = safe_name f2 -> f1 = f2) ->
  NoDup (scratch_names env args).
Proof.
  intro Hinj. unfold scratch_names.
  destruct (env_error env args) eqn:He.
  - destruct (main_env_error _ _ He) as (msgs & _ & ->).
    unfold trace. cbn [snd]. rewrite writes_stderr. constructor.
  - destruct (env_error_false _ _ He) as (cmd_base & Hw & Hc & Hf).
    rewrite (main_writes _ _ _ Hw Hc Hf), map_map.
    unfold job_write. cbn [fst].
    apply (NoDup_map_reflect _ name_key).
    + intros j1 j2 _ _ E. apply scratch_in_inj in E as [E1 E2].
      unfold name_key. now rewrite E1, E2.
    + apply jobs_keys_NoDup; auto using input_files_NoDup.
Qed.

Lemma scratch_names_distinct_witness :
  NoDup (scratch_names sample_env docs_args).
Proof.
  apply (scratch_names_distinct sample_env docs_args).
  intros f1 f2 H1 H2.
  vm_compute in H1, H2.
  destruct H1 as [<-|[<-|[<-|[<-|[]]]]], H2 as [<-|[<-|[<-|[<-|[]]]]];
    intro E; solve [reflexivity | vm_compute in E; discriminate E].
Defined.

(** ** Sample runs *)

(** Three blocks in two of the three documents under [/docs]; the second
    invocation fails. *)
Example sample_run_status : outcome (main sample_env docs_args) = Ok 1.
Proof. vm_compute. reflexivity. Qed.

Example sample_run_names :
  scratch_names sample_env docs_args
  = [ lit "/tmp/mermaid_check_k3/_docs_a.md.block_001.mmd";
      lit "/tmp/mermaid_check_k3/_docs_a.md.block_002.mmd";
      lit "/tmp/mermaid_check_k3/_docs_bad.md.block_001.mmd" ].
Proof. vm_compute. reflexivity. Qed.

(** The failed block is reported with the first line of the diagnostic,
    the stray byte gone, and the further lines indented. *)
Example sample_run_error_lines :
  filter (fun e => match e with Stderr _ => true | _ => false end)
    (trace (main sample_env docs_args))
  = [ Stderr (lit "ERR  /docs/a.md:7  (_docs_a.md.block_002.mmd)  Parse error");
      Stderr (lit "      line 2") ].
Proof. vm_compute. reflexivity. Qed.

(** The text of a block is the lines between its fences. *)
Example sample_block_content :
  map content (blocks_of sample_env (lit "/docs/a.md"))
  = [ lit "graph TD" ++ [LF] ++ lit "  A-->B"; lit "pie" ].
Proof. vm_compute. reflexivity. Qed.

Example sample_clash_names :
  scratch_names sample_env clash_args
  = [ lit "/tmp/mermaid_check_k3/_x_y.md.block_001.mmd";
      lit "/tmp/mermaid_check_k3/_x_y.md.block_002.mmd";
      lit "/tmp/mermaid_check_k3/_x_y.md.block_001.mmd";
      lit "/tmp/mermaid_check_k3/_x_y.md.block_002.mmd" ].
Proof. vm_compute. reflexivity. Qed.
